(** * G1 segmented array: a shallow embedding of g1SegmentedArray.hpp

    The header declares four classes: [SegmentedArrayBuffer] (a slab of
    [_num_elems] blocks of [_elem_size] bytes with a bump index),
    [SegmentedArrayBufferList] (the free list of slabs),
    [G1SegmentedArrayAllocOptions] (the sizing policy) and
    [G1SegmentedArray] (the allocator; only declarations).

    Integers of type [uint] are modelled as [Z] with the 32-bit wrap-around
    written out; addresses are [Z], with [NULL = 0]. *)

From Stdlib Require Import ZArith Lia.
From stdpp Require Import base numbers option list relations gmap.

Local Open Scope Z_scope.

(** ** Machine integers *)

(** [uint] is a 32-bit unsigned integer on the platform of the header
    (LINUX_X86_64); [UINT_MAX] comes from <limits.h>. *)
Definition UINT_MAX : Z := 4294967295.

Definition is_uint (x : Z) : Prop := 0 ≤ x ≤ UINT_MAX.

Definition uint_wrap (x : Z) : Z := x mod 4294967296.

Definition uint_add (a b : Z) : Z := uint_wrap (a + b).
Definition uint_mul (a b : Z) : Z := uint_wrap (a * b).

(** [size_t] is 64 bits wide on the same platform. *)
Definition size_t_wrap (x : Z) : Z := x mod 18446744073709551616.
Definition size_t_add (a b : Z) : Z := size_t_wrap (a + b).
Definition size_t_mul (a b : Z) : Z := size_t_wrap (a * b).

(** ** The [assert] macro

    [assert(p, msg)] aborts the VM in debug builds and is compiled out of
    product builds.  [ASSERT] says which build is modelled; a failed
    assertion is the result [None]. *)
Definition assert (ASSERT : bool) (p : bool) : option unit :=
  if ASSERT then (if p then Some () else None) else Some ().

(** Modelled from the spec: the helper [clamp] (utilities, not under src/);
    the value bounded below by [lo] and above by [hi]. *)
Definition clamp (value lo hi : Z) : Z := Z.min (Z.max value lo) hi.

(** The same bound read off the specification's words, case by case. *)
Definition clamp_spec (value lo hi : Z) : Z :=
  if value <? lo then lo else if hi <? value then hi else value.

(** ** G1SegmentedArrayAllocOptions: the sizing policy *)
Module G1SegmentedArrayAllocOptions.

Record t := Build {
  _elem_size : Z;
  _initial_num_elems : Z;
  (* Defines a limit to the number of elements in the buffer *)
  _max_num_elems : Z;
  _alignment : Z;
}.

Definition BufferAlignment : Z := 4.
Definition MinimumBufferSize : Z := 8.
Definition MaximumBufferSize : Z := UINT_MAX / 2.

(** The constructor.  An argument the caller leaves out is [None] and
    takes the default of the declaration (C++ lets the caller leave out
    trailing arguments only; a call that names a later argument passes the
    earlier ones). *)
Definition construct (elem_size : Z) (initial_num_elems max_num_elems alignment : option Z) : t :=
  {| _elem_size := elem_size;
     _initial_num_elems := default MinimumBufferSize initial_num_elems;
     _max_num_elems := default MaximumBufferSize max_num_elems;
     _alignment := default BufferAlignment alignment |}.

Definition exponential_expand (this : t) (prev_num_elems : Z) : Z :=
  clamp (uint_mul prev_num_elems 2) (_initial_num_elems this) (_max_num_elems this).

Definition next_num_elems (this : t) (prev_num_elems : Z) : Z :=
  _initial_num_elems this.

Definition elem_size (this : t) : Z := _elem_size this.

Definition alignment (this : t) : Z := _alignment this.

End G1SegmentedArrayAllocOptions.

(** ** SegmentedArrayBuffer: one slab *)
Module SegmentedArrayBuffer.

(** A single buffer/arena containing [_num_elems] blocks of memory of
    [_elem_size].  [storage] is the content of the block of memory that
    [_buffer] points to. *)
Record t := Build {
  _elem_size : Z;
  _num_elems : Z;
  _next : Z;
  _buffer : Z;
  (* Index into the next free block to allocate into. Full if equal (or larger)
     to _num_elems (can be larger because we atomically increment this value and
     check only afterwards if the allocation has been successful). *)
  _next_allocate : Z;
  storage : list Byte.byte;
}.

Definition NULL : Z := 0.

(** What the types of the members and the allocation of the storage give. *)
Definition wf (b : t) : Prop :=
  is_uint (_elem_size b) ∧ is_uint (_num_elems b) ∧ is_uint (_next_allocate b) ∧
  Z.of_nat (length (storage b)) = _num_elems b * _elem_size b.

Definition with_next (b : t) (next : Z) : t :=
  {| _elem_size := _elem_size b; _num_elems := _num_elems b; _next := next;
     _buffer := _buffer b; _next_allocate := _next_allocate b; storage := storage b |}.

Definition with_next_allocate (b : t) (n : Z) : t :=
  {| _elem_size := _elem_size b; _num_elems := _num_elems b; _next := _next b;
     _buffer := _buffer b; _next_allocate := n; storage := storage b |}.

Definition with_storage (b : t) (s : list Byte.byte) : t :=
  {| _elem_size := _elem_size b; _num_elems := _num_elems b; _next := _next b;
     _buffer := _buffer b; _next_allocate := _next_allocate b; storage := s |}.

(** [memset(p, c, n)] on the block [s] that starts at [p]: the first [n]
    bytes become [c].  The block of a well-formed buffer has exactly the
    [n] bytes that [reset] clears. *)
Definition memset (s : list Byte.byte) (c : Byte.byte) (n : Z) : list Byte.byte :=
  replicate (Z.to_nat n) c ++ drop (Z.to_nat n) s.

(** [next_addr()] hands out [&_next]; the lock-free stack reads and writes
    the link through it, with no assertion. *)
Definition load_next_addr (b : t) : Z := _next b.
Definition store_next_addr (b : t) (v : Z) : t := with_next b v.

Definition num_elems (b : t) : Z := _num_elems b.

Definition next (b : t) : Z := _next b.

Definition set_next (ASSERT : bool) (this : Z) (b : t) (next : Z) : option t :=
  _ ← assert ASSERT (bool_decide (next ≠ this));
  Some (with_next b next).

Definition reset (ASSERT : bool) (this : Z) (b : t) (next : Z) : option t :=
  let b := with_next_allocate b 0 in
  _ ← assert ASSERT (bool_decide (next ≠ this));
  b ← set_next ASSERT this b next;
  Some (with_storage b (memset (storage b) Byte.x00 (size_t_mul (_num_elems b) (_elem_size b)))).

(** The buffer that [reset] leaves when its assertions hold. *)
Definition reset_result (b : t) (next : Z) : t :=
  with_storage (with_next (with_next_allocate b 0) next)
    (memset (storage b) Byte.x00 (size_t_mul (_num_elems b) (_elem_size b))).

Definition elem_size (b : t) : Z := _elem_size b.

Definition mem_size (sizeof_this : Z) (b : t) : Z :=
  size_t_add sizeof_this (size_t_mul (_num_elems b) (_elem_size b)).

Definition length (b : t) : Z := _next_allocate b.

Definition start (b : t) : Z := _buffer b.

Definition is_full (b : t) : bool := _next_allocate b >=? _num_elems b.

(** Modelled from the spec: the body of [get_new_buffer_elem] (declared in
    the header, defined elsewhere).  It atomically increments
    [_next_allocate] and takes the previous value; when that value is below
    the capacity the call returns the address [previous * elem_size] into
    the buffer, otherwise it returns nothing (exhausted).  The counter is
    the [uint] member, so the increment is modulo 2^32. *)
Definition fetch_and_add_next_allocate (b : t) : Z * t :=
  (_next_allocate b, with_next_allocate b (uint_add (_next_allocate b) 1)).

Definition elem_at (b : t) (result : Z) : option Z :=
  if result <? _num_elems b
  then Some (_buffer b + result * _elem_size b)
  else None.

Definition get_new_buffer_elem (b : t) : option Z * t :=
  let '(result, b') := fetch_and_add_next_allocate b in
  (elem_at b' result, b').

(** The interface of the class: every member function a client can call,
    with the store through [next_addr()]. *)
Inductive method :=
| call_next_addr_store (v : Z)
| call_get_new_buffer_elem
| call_num_elems
| call_next
| call_set_next (next : Z)
| call_reset (next : Z)
| call_elem_size
| call_mem_size
| call_length
| call_start
| call_is_full.

(** The buffer after a call; [None] when an assertion fails. *)
Definition call (ASSERT : bool) (this : Z) (m : method) (b : t) : option t :=
  match m with
  | call_next_addr_store v => Some (store_next_addr b v)
  | call_get_new_buffer_elem => Some (snd (get_new_buffer_elem b))
  | call_set_next next => set_next ASSERT this b next
  | call_reset next => reset ASSERT this b next
  | call_num_elems | call_next | call_elem_size | call_mem_size
  | call_length | call_start | call_is_full => Some b
  end.

(** *** Concurrent callers of [get_new_buffer_elem]

    A call is two steps: the atomic fetch-and-add on the shared counter,
    then the comparison of the fetched value with the capacity, which is
    local to the caller.  Callers interleave at these steps. *)
Inductive caller :=
| Invoked
| Fetched (result : Z)
| Returned (r : option Z).

Inductive step : t * list caller → t * list caller → Prop :=
| step_fetch b cs i :
    cs !! i = Some Invoked →
    step (b, cs)
         (snd (fetch_and_add_next_allocate b),
          <[i := Fetched (fst (fetch_and_add_next_allocate b))]> cs)
| step_return b cs i result :
    cs !! i = Some (Fetched result) →
    step (b, cs) (b, <[i := Returned (elem_at b result)]> cs).

Definition returned (c : caller) : option (option Z) :=
  match c with Returned r => Some r | _ => None end.

Definition all_returned (cs : list caller) : Prop :=
  Forall (λ c, is_Some (returned c)) cs.








(** Two states of a buffer that differ at most in the [_next] link. *)
Definition same_but_next (b b' : t) : Prop :=
  _elem_size b' = _elem_size b ∧ _num_elems b' = _num_elems b ∧
  _buffer b' = _buffer b ∧ _next_allocate b' = _next_allocate b ∧
  storage b' = storage b.

End SegmentedArrayBuffer.

(** ** SegmentedArrayBufferList: the set of free buffers *)
Module SegmentedArrayBufferList.
Import SegmentedArrayBuffer.

(** The buffers live in a heap, keyed by their address. *)
Abbreviation heap := (gmap Z SegmentedArrayBuffer.t).

Record t := Build {
  _list : Z;
  _num_buffers : Z;
  _mem_size : Z;
}.

(** [_list] is the address of the top node of the [NodeStack], [NULL] for
    an empty stack. *)
Definition construct : t := {| _list := NULL; _num_buffers := 0; _mem_size := 0 |}.

(** Modelled from the spec: the class LockFreeStack (utilities, not under
    src/), "a singly linked lock-free stack of Buffers", linked through
    [next_ptr], that is [next_addr()], one operation at a time.  [prepend]
    links the node in front of the top; [pop] removes and returns the top
    node, or [NULL] when the stack is empty.  A dereference of an address
    with no buffer is [None]. *)
Definition prepend (top : Z) (h : heap) (value : Z) : option (Z * heap) :=
  b ← h !! value;
  Some (value, <[value := store_next_addr b top]> h).

Definition pop (top : Z) (h : heap) : option (Z * Z * heap) :=
  if decide (top = NULL) then Some (NULL, top, h)
  else b ← h !! top; Some (top, load_next_addr b, h).

Definition add (this : t) (h : heap) (elem : Z) : option (t * heap) :=
  '(top, h) ← prepend (_list this) h elem;
  Some ({| _list := top; _num_buffers := _num_buffers this; _mem_size := _mem_size this |}, h).

(** Modelled from the spec: the body of [get] (declared in the header,
    defined elsewhere): it pops one buffer, or gives [NULL] when there is
    none, and keeps the two counters along. *)
Definition get (sizeof_buffer : Z) (this : t) (h : heap) : option (Z * t * heap) :=
  '(result, top, h) ← pop (_list this) h;
  if decide (result = NULL)
  then Some (result, {| _list := top; _num_buffers := _num_buffers this; _mem_size := _mem_size this |}, h)
  else
    b ← h !! result;
    Some (result,
          {| _list := top;
             _num_buffers := size_t_wrap (_num_buffers this - 1);
             _mem_size := size_t_wrap (_mem_size this - mem_size sizeof_buffer b) |},
          h).

Definition num_buffers (this : t) : Z := _num_buffers this.
Definition mem_size (this : t) : Z := _mem_size this.

(** What can happen to the buffers of a heap: a call on the buffer at
    [this], or a push or a pop on the free list. *)
Inductive event :=
| on_buffer (this : Z) (m : method)
| list_add (elem : Z)
| list_get.

Definition exec (ASSERT : bool) (sizeof_buffer : Z) (e : event) (w : t * heap) : option (t * heap) :=
  match e with
  | on_buffer this m =>
      b ← w.2 !! this;
      b' ← call ASSERT this m b;
      Some (w.1, <[this := b']> w.2)
  | list_add elem => add w.1 w.2 elem
  | list_get =>
      '(_, l, h) ← get sizeof_buffer w.1 w.2;
      Some (l, h)
  end.

Fixpoint exec_all (ASSERT : bool) (sizeof_buffer : Z) (es : list event) (w : t * heap) : option (t * heap) :=
  match es with
  | [] => Some w
  | e :: es => w ← exec ASSERT sizeof_buffer e w; exec_all ASSERT sizeof_buffer es w
  end.

(** Two buffers with the same constant members. *)
Definition same_size (b b' : SegmentedArrayBuffer.t) : Prop :=
  _elem_size b' = _elem_size b ∧ _num_elems b' = _num_elems b.

End SegmentedArrayBufferList.

(** * Properties *)

(** ** Machine arithmetic *)

Lemma uint_wrap_range x : is_uint (uint_wrap x).
Proof.
  unfold is_uint, uint_wrap, UINT_MAX.
  pose proof (Z.mod_pos_bound x 4294967296). lia.
Qed.

Lemma uint_wrap_small x : is_uint x → uint_wrap x = x.
Proof.
  unfold is_uint, uint_wrap, UINT_MAX. intros ?.
  apply Z.mod_small. lia.
Qed.

Lemma uint_wrap_once x :
  UINT_MAX < x ≤ 2 * UINT_MAX + 1 → uint_wrap x = x - (UINT_MAX + 1).
Proof.
  unfold uint_wrap, UINT_MAX. intros ?.
  symmetry. apply (Z.mod_unique _ _ 1); lia.
Qed.

Lemma size_t_mul_uint a b : is_uint a → is_uint b → size_t_mul a b = a * b.
Proof.
  unfold is_uint, size_t_mul, size_t_wrap, UINT_MAX. intros ? ?.
  apply Z.mod_small. nia.
Qed.

Lemma clamp_clamp_spec value lo hi :
  lo ≤ hi → clamp value lo hi = clamp_spec value lo hi.
Proof.
  intros ?. unfold clamp, clamp_spec.
  destruct (Z.ltb_spec value lo); [lia|].
  destruct (Z.ltb_spec hi value); lia.
Qed.

Lemma clamp_bounds value lo hi : lo ≤ hi → lo ≤ clamp value lo hi ≤ hi.
Proof. unfold clamp. lia. Qed.

(** ** The sizing policy *)
Section SizingPolicy.
Import G1SegmentedArrayAllocOptions.

(** C1: for every sizing policy and every previous capacity,
    [next_num_elems] returns the constant [_initial_num_elems], whatever the
    previous capacity is, and it is not the doubling helper
    [exponential_expand]: with the default bounds and a previous capacity of
    8 the policy answers 8 where the helper gives 16. *)
Theorem next_num_elems_constant (o : t) (prev : Z) :
  next_num_elems o prev = _initial_num_elems o ∧
  (∀ prev', next_num_elems o prev' = next_num_elems o prev) ∧
  next_num_elems (construct 16 None None None) 8 = 8 ∧
  exponential_expand (construct 16 None None None) 8 = 16.
Proof.
  split; [reflexivity|].
  split; [intros prev'; reflexivity|].
  split; vm_compute; reflexivity.
Qed.

(** The constructor stores what it is given. *)
Lemma construct_fields elem_size initial max alignment :
  let o := construct elem_size initial max alignment in
  _elem_size o = elem_size ∧
  _initial_num_elems o = default MinimumBufferSize initial ∧
  _max_num_elems o = default MaximumBufferSize max ∧
  _alignment o = default BufferAlignment alignment.
Proof. repeat split. Qed.

(** C5, as the constructor has it: the constructor stores its arguments
    unchanged, so the stored [initial_num_elems] is at least 8 and the stored
    [max_num_elems] at most [UINT_MAX / 2] when each argument is left to its
    default or is given within that bound. *)
Theorem construct_bounds (elem_size : Z) (initial max alignment : option Z) :
  (∀ i, initial = Some i → 8 ≤ i) →
  (∀ m, max = Some m → m ≤ UINT_MAX / 2) →
  _initial_num_elems (construct elem_size initial max alignment) = default 8 initial ∧
  _max_num_elems (construct elem_size initial max alignment) = default (UINT_MAX / 2) max ∧
  8 ≤ _initial_num_elems (construct elem_size initial max alignment) ∧
  _max_num_elems (construct elem_size initial max alignment) ≤ UINT_MAX / 2.
Proof.
  intros Hi Hm.
  destruct (construct_fields elem_size initial max alignment) as (_ & Ei & Em & _).
  rewrite Ei, Em. unfold MinimumBufferSize, MaximumBufferSize.
  repeat split.
  - destruct initial as [i|]; simpl; [apply Hi; reflexivity | lia].
  - destruct max as [m|]; simpl; [apply Hm; reflexivity | lia].
Qed.

Lemma construct_bounds_witness :
  _initial_num_elems (construct 16 (Some 32) (Some 1024) None) = 32 ∧
  _max_num_elems (construct 16 (Some 32) (Some 1024) None) = 1024 ∧
  8 ≤ _initial_num_elems (construct 16 (Some 32) (Some 1024) None) ∧
  _max_num_elems (construct 16 (Some 32) (Some 1024) None) ≤ UINT_MAX / 2.
Proof.
  apply (construct_bounds 16 (Some 32) (Some 1024) None).
  - intros i [= <-]. lia.
  - intros m [= <-]. vm_compute. discriminate.
Defined.

(** C5 as stated fails: an initial size of 1 and a maximum of [UINT_MAX]
    are stored as they are. *)
Lemma construct_out_of_bounds :
  _initial_num_elems (construct 16 (Some 1) (Some UINT_MAX) None) = 1 ∧
  _initial_num_elems (construct 16 (Some 1) (Some UINT_MAX) None) < 8 ∧
  _max_num_elems (construct 16 (Some 1) (Some UINT_MAX) None) = 4294967295 ∧
  UINT_MAX / 2 < _max_num_elems (construct 16 (Some 1) (Some UINT_MAX) None).
Proof. repeat split. Qed.

(** C8: a policy constructed from an element size alone has
    [initial_num_elems = 8], [max_num_elems = UINT_MAX / 2] (2147483647)
    and [alignment = 4], and the element size it was given. *)
Theorem construct_defaults (elem_size : Z) :
  _elem_size (construct elem_size None None None) = elem_size ∧
  _initial_num_elems (construct elem_size None None None) = 8 ∧
  _max_num_elems (construct elem_size None None None) = UINT_MAX / 2 ∧
  _max_num_elems (construct elem_size None None None) = 2147483647 ∧
  _alignment (construct elem_size None None None) = 4 ∧
  alignment (construct elem_size None None None) = 4.
Proof.
  destruct (construct_fields elem_size None None None) as (Ee & Ei & Em & Ea).
  unfold alignment. rewrite Ee, Ei, Em, Ea.
  repeat split.
Qed.

(** C6, as the code has it: with [initial_num_elems ≤ max_num_elems],
    [exponential_expand(prev)] is [prev * 2] bounded below by
    [initial_num_elems] and above by [max_num_elems] for every [prev] of at
    most [UINT_MAX / 2].  For a larger [prev] the product is a [uint] and
    what is bounded is [prev * 2 - 2^32].  In both cases the result lies
    between the two limits. *)
Theorem exponential_expand_clamp (o : t) (prev : Z) :
  _initial_num_elems o ≤ _max_num_elems o →
  is_uint prev →
  (prev ≤ UINT_MAX / 2 →
   exponential_expand o prev =
     clamp_spec (prev * 2) (_initial_num_elems o) (_max_num_elems o)) ∧
  (UINT_MAX / 2 < prev →
   exponential_expand o prev =
     clamp_spec (prev * 2 - 4294967296) (_initial_num_elems o) (_max_num_elems o)) ∧
  _initial_num_elems o ≤ exponential_expand o prev ≤ _max_num_elems o.
Proof.
  change (UINT_MAX / 2) with 2147483647. unfold is_uint, UINT_MAX.
  intros Hle Hprev. unfold exponential_expand.
  split; [|split].
  - intros Hlow. rewrite clamp_clamp_spec by assumption.
    unfold uint_mul. rewrite uint_wrap_small; [reflexivity|].
    unfold is_uint, UINT_MAX. lia.
  - intros Hhigh. rewrite clamp_clamp_spec by assumption.
    unfold uint_mul. rewrite uint_wrap_once; [reflexivity|].
    unfold UINT_MAX. lia.
  - apply clamp_bounds. assumption.
Qed.

Lemma exponential_expand_clamp_witness :
  exponential_expand (construct 16 None None None) 100 = 200 ∧
  exponential_expand (construct 16 (Some 8) (Some 64) None) 100 = 64 ∧
  exponential_expand (construct 16 None None None) 3000000000 = 1705032704.
Proof.
  split; [|split].
  - destruct (exponential_expand_clamp (construct 16 None None None) 100) as (E & _).
    + vm_compute. discriminate.
    + unfold is_uint, UINT_MAX. lia.
    + rewrite E; [reflexivity|]. vm_compute. discriminate.
  - destruct (exponential_expand_clamp (construct 16 (Some 8) (Some 64) None) 100) as (E & _).
    + vm_compute. discriminate.
    + unfold is_uint, UINT_MAX. lia.
    + rewrite E; [reflexivity|]. vm_compute. discriminate.
  - destruct (exponential_expand_clamp (construct 16 None None None) 3000000000) as (_ & E & _).
    + vm_compute. discriminate.
    + unfold is_uint, UINT_MAX. lia.
    + rewrite E; [reflexivity|]. vm_compute. reflexivity.
Defined.

(** C6 as stated fails above [UINT_MAX / 2]: with the default limits, 8
    and 2147483647, and [prev = 2^31] the helper returns 8, where [prev * 2]
    bounded by the limits is 2147483647. *)
Lemma exponential_expand_above_half :
  _initial_num_elems (construct 16 None None None)
    ≤ _max_num_elems (construct 16 None None None) ∧
  exponential_expand (construct 16 None None None) 2147483648 = 8 ∧
  clamp_spec (2147483648 * 2)
    (_initial_num_elems (construct 16 None None None))
    (_max_num_elems (construct 16 None None None)) = 2147483647.
Proof.
  split; [vm_compute; discriminate|]. split; vm_compute; reflexivity.
Qed.

(** C10: [exponential_expand] multiplies in unsigned 32-bit arithmetic.
    For every [prev] above [UINT_MAX / 2] the product wraps, to
    [prev * 2 - 2^32], which is below [prev]; the capacity returned is then
    below [prev] as soon as [initial_num_elems] is, and the helper is not
    monotone: with [initial < max < UINT_MAX] it gives [max] at
    [UINT_MAX / 2] and [initial] at the next [prev]. *)
Theorem exponential_expand_wraps (o : t) (prev : Z) :
  UINT_MAX / 2 < prev ≤ UINT_MAX →
  uint_mul prev 2 = prev * 2 - 4294967296 ∧
  uint_mul prev 2 < prev ∧
  exponential_expand o prev =
    clamp (prev * 2 - 4294967296) (_initial_num_elems o) (_max_num_elems o) ∧
  (_initial_num_elems o < prev → exponential_expand o prev < prev) ∧
  (0 ≤ _initial_num_elems o < _max_num_elems o → _max_num_elems o < UINT_MAX →
   exponential_expand o (UINT_MAX / 2) = _max_num_elems o ∧
   exponential_expand o (UINT_MAX / 2 + 1) = _initial_num_elems o ∧
   exponential_expand o (UINT_MAX / 2 + 1) < exponential_expand o (UINT_MAX / 2)).
Proof.
  change (UINT_MAX / 2) with 2147483647. unfold UINT_MAX. intros Hprev.
  assert (Hw : uint_mul prev 2 = prev * 2 - 4294967296).
  { unfold uint_mul. rewrite uint_wrap_once; unfold UINT_MAX; lia. }
  unfold exponential_expand. rewrite Hw.
  split; [reflexivity|].
  split; [lia|].
  split; [reflexivity|].
  split; [unfold clamp; lia|].
  intros Hlt Hmax.
  change (uint_mul 2147483647 2) with 4294967294.
  change (uint_mul (2147483647 + 1) 2) with 0.
  unfold clamp. lia.
Qed.

Lemma exponential_expand_wraps_witness :
  uint_mul 3000000000 2 = 1705032704 ∧
  exponential_expand (construct 16 None None None) 3000000000 = 1705032704 ∧
  exponential_expand (construct 16 None None None) 2147483648 = 8.
Proof.
  destruct (exponential_expand_wraps (construct 16 None None None) 3000000000) as (E1 & _ & E2 & _).
  { vm_compute. split; [reflexivity | discriminate]. }
  destruct (exponential_expand_wraps (construct 16 None None None) 2147483648) as (_ & _ & E3 & _).
  { vm_compute. split; [reflexivity | discriminate]. }
  rewrite E1, E2, E3. repeat split.
Defined.

End SizingPolicy.

(** ** The buffer *)
Section Buffer.
Import SegmentedArrayBuffer.

Lemma assert_Some ASSERT p : p = true → assert ASSERT p = Some ().
Proof. intros ->. destruct ASSERT; reflexivity. Qed.

Lemma assert_debug_false : assert true false = None.
Proof. reflexivity. Qed.

Lemma set_next_inv ASSERT this b next b' :
  set_next ASSERT this b next = Some b' → b' = with_next b next.
Proof.
  unfold set_next. destruct (assert ASSERT _); simpl; congruence.
Qed.

Lemma set_next_ok ASSERT this b next :
  next ≠ this → set_next ASSERT this b next = Some (with_next b next).
Proof.
  intros Hne. unfold set_next.
  rewrite assert_Some; [reflexivity|].
  apply bool_decide_eq_true. assumption.
Qed.

(** In a debug build the assertion of [set_next] stops a self-link. *)
Lemma set_next_self_debug this b : set_next true this b this = None.
Proof.
  unfold set_next. rewrite bool_decide_eq_false_2; [reflexivity|].
  intros Hne. apply Hne. reflexivity.
Qed.

Lemma reset_inv ASSERT this b next b' :
  reset ASSERT this b next = Some b' → b' = reset_result b next.
Proof.
  unfold reset. destruct (assert ASSERT _); simpl; [|congruence].
  destruct (set_next ASSERT this _ next) as [b1|] eqn:E; simpl; [|congruence].
  apply set_next_inv in E. subst b1. intros [= <-]. reflexivity.
Qed.

Lemma reset_ok ASSERT this b next :
  next ≠ this → reset ASSERT this b next = Some (reset_result b next).
Proof.
  intros Hne. unfold reset.
  rewrite assert_Some by (apply bool_decide_eq_true; assumption). simpl.
  rewrite set_next_ok by assumption. reflexivity.
Qed.

Lemma memset_whole (s : list Byte.byte) c n :
  Z.of_nat (List.length s) = n → memset s c n = replicate (Z.to_nat n) c.
Proof.
  intros Hlen. unfold memset.
  rewrite drop_ge by lia. apply app_nil_r.
Qed.

Lemma memset_length (s : list Byte.byte) c n :
  Z.of_nat (List.length s) = n → List.length (memset s c n) = List.length s.
Proof.
  intros Hlen. rewrite memset_whole by assumption.
  rewrite length_replicate. lia.
Qed.

(** C3: after [reset(next)] completes on a buffer, the bump index
    [_next_allocate] is 0, so [length()] is 0; the backing storage, of
    [_num_elems * _elem_size] bytes, holds a zero in every byte; and the
    [_next] link is [next]. *)
Theorem reset_clears ASSERT this (b : t) next b' :
  wf b →
  reset ASSERT this b next = Some b' →
  _next_allocate b' = 0 ∧
  length b' = 0 ∧
  Z.of_nat (List.length (storage b')) = _num_elems b' * _elem_size b' ∧
  storage b' = replicate (Z.to_nat (_num_elems b' * _elem_size b')) Byte.x00 ∧
  (∀ i x, storage b' !! i = Some x → x = Byte.x00) ∧
  _next b' = next.
Proof.
  intros (He & Hn & _ & Hlen) Hreset.
  apply reset_inv in Hreset. subst b'.
  unfold reset_result, length. simpl.
  rewrite size_t_mul_uint by assumption.
  rewrite memset_whole by assumption.
  rewrite length_replicate.
  split; [reflexivity|]. split; [reflexivity|].
  split; [lia|]. split; [reflexivity|].
  split; [|reflexivity].
  intros i x Hix. apply lookup_replicate in Hix. tauto.
Qed.

Lemma reset_clears_witness :
  reset true 12288 (Build 2 3 NULL 4096 5 (replicate 6 Byte.xff)) 8192
    = Some (reset_result (Build 2 3 NULL 4096 5 (replicate 6 Byte.xff)) 8192) ∧
  _next_allocate (reset_result (Build 2 3 NULL 4096 5 (replicate 6 Byte.xff)) 8192) = 0 ∧
  storage (reset_result (Build 2 3 NULL 4096 5 (replicate 6 Byte.xff)) 8192) = replicate 6 Byte.x00 ∧
  _next (reset_result (Build 2 3 NULL 4096 5 (replicate 6 Byte.xff)) 8192) = 8192.
Proof.
  assert (Hreset : reset true 12288 (Build 2 3 NULL 4096 5 (replicate 6 Byte.xff)) 8192
                   = Some (reset_result (Build 2 3 NULL 4096 5 (replicate 6 Byte.xff)) 8192))
    by reflexivity.
  split; [exact Hreset|].
  destruct (reset_clears true 12288 (Build 2 3 NULL 4096 5 (replicate 6 Byte.xff)) 8192
              (reset_result (Build 2 3 NULL 4096 5 (replicate 6 Byte.xff)) 8192))
    as (H0 & _ & _ & Hs & _ & Hn).
  - unfold wf, is_uint, UINT_MAX. simpl. lia.
  - exact Hreset.
  - rewrite H0, Hs, Hn. repeat split.
Defined.

(** C9: for a link [next] other than the buffer itself, the "loop
    condition" assertions of [set_next(next)] and [reset(next)] hold, in a
    debug build as in a product build, the call completes, and the buffer's
    link is then [next], which is not the buffer. *)
Theorem set_next_reset_no_self_link ASSERT this (b : t) next :
  next ≠ this →
  (∃ b', set_next ASSERT this b next = Some b' ∧ _next b' = next ∧ _next b' ≠ this) ∧
  (∃ b', reset ASSERT this b next = Some b' ∧ _next b' = next ∧ _next b' ≠ this).
Proof.
  intros Hne. split.
  - exists (with_next b next). rewrite set_next_ok by assumption.
    simpl. repeat split; assumption.
  - exists (reset_result b next). rewrite reset_ok by assumption.
    simpl. repeat split; assumption.
Qed.

Lemma set_next_reset_no_self_link_witness :
  (∃ b', set_next true 12288 (Build 2 3 NULL 4096 5 (replicate 6 Byte.xff)) 8192 = Some b' ∧
         _next b' = 8192 ∧ _next b' ≠ 12288) ∧
  (∃ b', reset true 12288 (Build 2 3 NULL 4096 5 (replicate 6 Byte.xff)) 8192 = Some b' ∧
         _next b' = 8192 ∧ _next b' ≠ 12288).
Proof.
  apply (set_next_reset_no_self_link true 12288 (Build 2 3 NULL 4096 5 (replicate 6 Byte.xff)) 8192).
  lia.
Defined.

(** The calls of the interface change neither constant member. *)
Lemma call_const_members ASSERT this m (b b' : t) :
  call ASSERT this m b = Some b' →
  _elem_size b' = _elem_size b ∧ _num_elems b' = _num_elems b.
Proof.
  destruct m; simpl; intros H;
    try (injection H as <-; split; reflexivity).
  - apply set_next_inv in H. subst b'. split; reflexivity.
  - apply reset_inv in H. subst b'. split; reflexivity.
Qed.

Lemma is_full_spec (b : t) : is_full b = true ↔ _num_elems b ≤ _next_allocate b.
Proof. unfold is_full. rewrite Z.geb_le. reflexivity. Qed.

Lemma fetch_and_add_no_wrap (b : t) :
  0 ≤ _next_allocate b < UINT_MAX →
  _next_allocate (snd (fetch_and_add_next_allocate b)) = _next_allocate b + 1.
Proof.
  intros H. simpl. unfold uint_add. apply uint_wrap_small.
  unfold is_uint. lia.
Qed.

(** C4, as the code has it: no operation of the buffer other than
    [reset] decreases [_next_allocate], the counter being below [UINT_MAX]
    when [get_new_buffer_elem] increments it (it is a [uint]).  That call
    increments it whether or not the buffer is full, so the counter can
    pass the capacity, and [is_full] holds exactly when
    [_next_allocate >= _num_elems]. *)
Theorem next_allocate_monotone ASSERT this m (b b' : t) :
  (∀ next, m ≠ call_reset next) →
  is_uint (_next_allocate b) →
  (m = call_get_new_buffer_elem → _next_allocate b < UINT_MAX) →
  call ASSERT this m b = Some b' →
  _next_allocate b ≤ _next_allocate b' ∧
  (m = call_get_new_buffer_elem → _next_allocate b' = _next_allocate b + 1) ∧
  (is_full b = true ↔ _next_allocate b >= _num_elems b) ∧
  (is_full b = true → is_full b' = true).
Proof.
  intros Hm Hu Hrange Hcall.
  assert (Hfull : ∀ x : t, is_full x = true ↔ _next_allocate x >= _num_elems x).
  { intros x. rewrite is_full_spec. lia. }
  assert (Hsame : _num_elems b' = _num_elems b)
    by (apply (call_const_members ASSERT this m); assumption).
  assert (Hstep : _next_allocate b ≤ _next_allocate b' ∧
                  (m = call_get_new_buffer_elem → _next_allocate b' = _next_allocate b + 1)).
  { destruct m; simpl in Hcall;
      try (injection Hcall as <-; simpl; split; [lia | discriminate]).
    - injection Hcall as <-.
      assert (E : _next_allocate (snd (fetch_and_add_next_allocate b)) = _next_allocate b + 1).
      { apply fetch_and_add_no_wrap. split; [apply Hu | apply Hrange; reflexivity]. }
      simpl in E |- *.
      split; [lia | intros _; exact E].
    - apply set_next_inv in Hcall. subst b'. simpl. split; [lia | discriminate].
    - exfalso. eapply Hm. reflexivity. }
  destruct Hstep as [Hle Hinc].
  split; [exact Hle|]. split; [exact Hinc|]. split; [apply Hfull|].
  rewrite !Hfull. lia.
Qed.

Lemma next_allocate_monotone_witness :
  _next_allocate (Build 2 3 NULL 4096 3 (replicate 6 Byte.x00)) ≤
    _next_allocate (snd (get_new_buffer_elem (Build 2 3 NULL 4096 3 (replicate 6 Byte.x00)))) ∧
  _next_allocate (snd (get_new_buffer_elem (Build 2 3 NULL 4096 3 (replicate 6 Byte.x00)))) = 4 ∧
  is_full (Build 2 3 NULL 4096 3 (replicate 6 Byte.x00)) = true.
Proof.
  destruct (next_allocate_monotone true 12288 call_get_new_buffer_elem
              (Build 2 3 NULL 4096 3 (replicate 6 Byte.x00))
              (snd (get_new_buffer_elem (Build 2 3 NULL 4096 3 (replicate 6 Byte.x00)))))
    as (Hle & Hinc & Hfull & _).
  - intros next. discriminate.
  - unfold is_uint, UINT_MAX. simpl. lia.
  - intros _. unfold UINT_MAX. simpl. lia.
  - reflexivity.
  - split; [exact Hle|]. split; [apply Hinc; reflexivity|].
    apply Hfull. simpl. lia.
Defined.

(** C4 as stated fails: [reset] takes the counter from 3 back to 0; and at
    [UINT_MAX] the increment of [get_new_buffer_elem] wraps to 0. *)
Lemma next_allocate_decreases :
  reset true 12288 (Build 2 3 NULL 4096 3 (replicate 6 Byte.x00)) NULL
    = Some (Build 2 3 NULL 4096 0 (replicate 6 Byte.x00)) ∧
  _next_allocate (Build 2 3 NULL 4096 0 (replicate 6 Byte.x00))
    < _next_allocate (Build 2 3 NULL 4096 3 (replicate 6 Byte.x00)) ∧
  call true 12288 call_get_new_buffer_elem (Build 2 3 NULL 4096 UINT_MAX (replicate 6 Byte.x00))
    = Some (Build 2 3 NULL 4096 0 (replicate 6 Byte.x00)) ∧
  _next_allocate (Build 2 3 NULL 4096 0 (replicate 6 Byte.x00))
    < _next_allocate (Build 2 3 NULL 4096 UINT_MAX (replicate 6 Byte.x00)).
Proof. repeat split. Qed.

End Buffer.

(** ** The free list *)
Section FreeList.
Import SegmentedArrayBuffer SegmentedArrayBufferList.

Lemma same_size_refl b : same_size b b.
Proof. split; reflexivity. Qed.

Lemma same_size_trans b1 b2 b3 : same_size b1 b2 → same_size b2 b3 → same_size b1 b3.
Proof. unfold same_size. intros [? ?] [? ?]. split; congruence. Qed.

Lemma prepend_inv top (h : heap) value top' h' :
  prepend top h value = Some (top', h') →
  ∃ b, h !! value = Some b ∧ top' = value ∧ h' = <[value := store_next_addr b top]> h.
Proof.
  unfold prepend. destruct (h !! value) as [b|]; simpl; [|congruence].
  intros [= <- <-]. exists b. repeat split.
Qed.

Lemma pop_heap top (h : heap) result top' h' :
  pop top h = Some (result, top', h') → h' = h.
Proof.
  unfold pop. destruct (decide (top = NULL)); [congruence|].
  destruct (h !! top); simpl; congruence.
Qed.

Lemma get_heap sizeof_buffer l (h : heap) result l' h' :
  get sizeof_buffer l h = Some (result, l', h') → h' = h.
Proof.
  unfold get. destruct (pop (_list l) h) as [[[r top] h1]|] eqn:E; simpl; [|congruence].
  apply pop_heap in E. subst h1.
  destruct (decide (r = NULL)); [congruence|].
  destruct (h !! r); simpl; congruence.
Qed.

Lemma exec_const_members ASSERT sizeof_buffer e l (h : heap) l' h' p b :
  exec ASSERT sizeof_buffer e (l, h) = Some (l', h') →
  h !! p = Some b →
  ∃ b', h' !! p = Some b' ∧ same_size b b'.
Proof.
  intros Hexec Hp. destruct e as [this m|elem|]; simpl in Hexec.
  - destruct (h !! this) as [b0|] eqn:E0; simpl in Hexec; [|congruence].
    destruct (call ASSERT this m b0) as [b0'|] eqn:Ec; simpl in Hexec; [|congruence].
    injection Hexec as <- <-.
    destruct (decide (this = p)) as [->|Hne].
    + rewrite lookup_insert_eq. exists b0'. split; [reflexivity|].
      assert (b0 = b) as -> by congruence.
      apply (call_const_members ASSERT p m). assumption.
    + rewrite lookup_insert_ne by assumption. exists b. split; [assumption|apply same_size_refl].
  - unfold add in Hexec.
    destruct (prepend (_list l) h elem) as [[top h1]|] eqn:E; simpl in Hexec; [|congruence].
    injection Hexec as <- <-.
    apply prepend_inv in E. destruct E as (b0 & E0 & -> & ->).
    destruct (decide (elem = p)) as [->|Hne].
    + rewrite lookup_insert_eq. eexists. split; [reflexivity|].
      assert (b0 = b) as -> by congruence. split; reflexivity.
    + rewrite lookup_insert_ne by assumption. exists b. split; [assumption|apply same_size_refl].
  - destruct (get sizeof_buffer l h) as [[[r l1] h1]|] eqn:E; simpl in Hexec; [|congruence].
    injection Hexec as <- <-.
    apply get_heap in E. subst h1.
    exists b. split; [assumption|apply same_size_refl].
Qed.

Lemma exec_all_const_members ASSERT sizeof_buffer es :
  ∀ l (h : heap) l' h' p b,
  exec_all ASSERT sizeof_buffer es (l, h) = Some (l', h') →
  h !! p = Some b →
  ∃ b', h' !! p = Some b' ∧ same_size b b'.
Proof.
  induction es as [|e es IH]; intros l h l' h' p b Hexec Hp; simpl in Hexec.
  - injection Hexec as <- <-. exists b. split; [assumption|apply same_size_refl].
  - destruct (exec ASSERT sizeof_buffer e (l, h)) as [[l1 h1]|] eqn:E; simpl in Hexec; [|congruence].
    destruct (exec_const_members _ _ _ _ _ _ _ _ _ E Hp) as (b1 & Hp1 & Hs1).
    destruct (IH _ _ _ _ _ _ Hexec Hp1) as (b' & Hp' & Hs').
    exists b'. split; [assumption|]. apply (same_size_trans _ b1); assumption.
Qed.

(** A buffer pushed on the free list is the one the next pop returns. *)
Lemma add_get sizeof_buffer l (h : heap) p b :
  h !! p = Some b → p ≠ NULL →
  ∃ l1 l2,
    add l h p = Some (l1, <[p := store_next_addr b (_list l)]> h) ∧
    get sizeof_buffer l1 (<[p := store_next_addr b (_list l)]> h)
      = Some (p, l2, <[p := store_next_addr b (_list l)]> h) ∧
    _list l2 = _list l.
Proof.
  intros Hp Hnull.
  exists {| _list := p; _num_buffers := _num_buffers l; _mem_size := _mem_size l |}.
  unfold add, prepend. rewrite Hp. simpl.
  unfold get, pop. simpl.
  destruct (decide (p = NULL)) as [|_]; [contradiction|].
  rewrite lookup_insert_eq. simpl.
  destruct (decide (p = NULL)) as [|_]; [contradiction|].
  rewrite lookup_insert_eq. simpl.
  eexists. split; [reflexivity|]. split; reflexivity.
Qed.

(** C7: the element size and the capacity of a buffer are fixed once it
    is constructed.  No call of its interface changes them, [reset]
    included; nothing that happens to the heap does, be it a call on any
    buffer, a push on the free list or a pop from it; and a buffer pushed on
    the free list and popped again is the same buffer, with the same
    element size and capacity. *)
Theorem elem_size_num_elems_immutable ASSERT sizeof_buffer
    (l : SegmentedArrayBufferList.t) (h : heap) (p : Z) (b : SegmentedArrayBuffer.t) :
  h !! p = Some b →
  (∀ m b', call ASSERT p m b = Some b' →
     elem_size b' = elem_size b ∧ num_elems b' = num_elems b) ∧
  (∀ next b', reset ASSERT p b next = Some b' →
     elem_size b' = elem_size b ∧ num_elems b' = num_elems b) ∧
  (∀ es l' h', exec_all ASSERT sizeof_buffer es (l, h) = Some (l', h') →
     ∃ b', h' !! p = Some b' ∧
           elem_size b' = elem_size b ∧ num_elems b' = num_elems b) ∧
  (p ≠ NULL →
   ∃ l1 h1 l2 h2 b',
     add l h p = Some (l1, h1) ∧
     get sizeof_buffer l1 h1 = Some (p, l2, h2) ∧
     h2 !! p = Some b' ∧
     elem_size b' = elem_size b ∧ num_elems b' = num_elems b).
Proof.
  intros Hp. unfold elem_size, num_elems.
  split; [intros m b'; apply call_const_members|].
  split; [intros next b'; apply (call_const_members ASSERT p (call_reset next))|].
  split.
  - intros es l' h' Hexec.
    destruct (exec_all_const_members _ _ _ _ _ _ _ _ _ Hexec Hp) as (b' & Hp' & He & Hn).
    exists b'. repeat split; assumption.
  - intros Hnull.
    destruct (add_get sizeof_buffer l h p b Hp Hnull) as (l1 & l2 & Hadd & Hget & _).
    exists l1, (<[p := store_next_addr b (_list l)]> h), l2,
      (<[p := store_next_addr b (_list l)]> h), (store_next_addr b (_list l)).
    split; [assumption|]. split; [assumption|].
    split; [apply lookup_insert_eq|]. split; reflexivity.
Qed.

Lemma elem_size_num_elems_immutable_witness :
  ∃ l' h' b',
    exec_all true 32 [list_add 4096; list_get; on_buffer 4096 (call_reset NULL)]
      (construct, {[ 4096 := SegmentedArrayBuffer.Build 2 3 NULL 8192 3 (replicate 6 Byte.xff) ]})
      = Some (l', h') ∧
    h' !! 4096 = Some b' ∧ elem_size b' = 2 ∧ num_elems b' = 3.
Proof.
  destruct (elem_size_num_elems_immutable true 32 construct
              {[ 4096 := SegmentedArrayBuffer.Build 2 3 NULL 8192 3 (replicate 6 Byte.xff) ]}
              4096 (SegmentedArrayBuffer.Build 2 3 NULL 8192 3 (replicate 6 Byte.xff)))
    as (_ & _ & Hall & _).
  - apply lookup_singleton_eq.
  - assert (Hrun : ∃ l' h',
      exec_all true 32 [list_add 4096; list_get; on_buffer 4096 (call_reset NULL)]
        (construct, {[ 4096 := SegmentedArrayBuffer.Build 2 3 NULL 8192 3 (replicate 6 Byte.xff) ]})
        = Some (l', h')).
    { eexists _, _. vm_compute. reflexivity. }
    destruct Hrun as (l' & h' & Hrun).
    destruct (Hall _ _ _ Hrun) as (b' & Hb' & He & Hn).
    exists l', h', b'.
    split; [exact Hrun|]. split; [exact Hb'|]. split; assumption.
Defined.

End FreeList.

(** ** Concurrent callers of get_new_buffer_elem *)
Section Callers.
Import SegmentedArrayBuffer.






















(** A call that runs without another caller in between is
    [get_new_buffer_elem]. *)
Lemma step_get_new_buffer_elem (b : t) cs i :
  cs !! i = Some Invoked →
  rtc step (b, cs)
    (snd (get_new_buffer_elem b), <[i := Returned (fst (get_new_buffer_elem b))]> cs).
Proof.
  intros Hi.
  eapply rtc_l; [apply (step_fetch b cs i Hi)|].
  eapply rtc_l; [eapply (step_return _ _ i)|].
  - apply list_lookup_insert_eq. eapply lookup_lt_Some. eassumption.
  - rewrite list_insert_insert_eq. apply rtc_refl.
Qed.

Lemma step_cons c b cs b' cs' :
  step (b, cs) (b', cs') → step (b, c :: cs) (b', c :: cs').
Proof.
  intros Hstep. inversion Hstep as [b1 cs1 i Hi|b1 cs1 i result Hi]; subst.
  - apply (step_fetch b (c :: cs) (S i)). exact Hi.
  - apply (step_return b' (c :: cs) (S i) result). exact Hi.
Qed.

Lemma rtc_step_cons c x y :
  rtc step x y → rtc step (x.1, c :: x.2) (y.1, c :: y.2).
Proof.
  induction 1 as [|[b1 cs1] [b2 cs2] z Hstep _ IH]; [apply rtc_refl|].
  eapply rtc_l; [|exact IH]. apply step_cons. exact Hstep.
Qed.

(** Every call returns: whatever the callers have done so far, they can
    all run to their return. *)
Lemma callers_return (b : t) cs :
  ∃ b' cs', rtc step (b, cs) (b', cs') ∧ all_returned cs'.
Proof.
  induction cs as [|c cs IH].
  - exists b, []. split; [apply rtc_refl|apply Forall_nil_2].
  - destruct IH as (b1 & cs1 & Hrtc & Hall).
    apply (rtc_step_cons c) in Hrtc. csimpl in Hrtc.
    destruct c as [|result|r].
    + exists (snd (get_new_buffer_elem b1)), (Returned (fst (get_new_buffer_elem b1)) :: cs1).
      split.
      * etransitivity; [exact Hrtc|].
        apply (step_get_new_buffer_elem b1 (Invoked :: cs1) 0). reflexivity.
      * apply Forall_cons_2; [eexists; reflexivity|exact Hall].
    + exists b1, (Returned (elem_at b1 result) :: cs1). split.
      * etransitivity; [exact Hrtc|].
        apply rtc_once. apply (step_return b1 (Fetched result :: cs1) 0). reflexivity.
      * apply Forall_cons_2; [eexists; reflexivity|exact Hall].
    + exists b1, (Returned r :: cs1). split; [exact Hrtc|].
      apply Forall_cons_2; [eexists; reflexivity|exact Hall].
Qed.



End Callers.

(** * Further properties of the header's code *)

(** ** Doubling within the bounds of the policy *)
Section Doubling.
Import G1SegmentedArrayAllocOptions.

Lemma exponential_expand_in_range (o : t) (x : Z) :
  _initial_num_elems o ≤ _max_num_elems o →
  _max_num_elems o ≤ MaximumBufferSize →
  0 ≤ x → _initial_num_elems o ≤ x ≤ _max_num_elems o →
  exponential_expand o x = Z.min (x * 2) (_max_num_elems o).
Proof.
  unfold MaximumBufferSize. change (UINT_MAX / 2) with 2147483647.
  intros Hle Hmax H0 Hx. unfold exponential_expand, uint_mul.
  rewrite uint_wrap_small by (unfold is_uint, UINT_MAX; lia).
  unfold clamp. lia.
Qed.

(** X1: with [max_num_elems] at most [MaximumBufferSize] (UINT_MAX / 2) and
    a previous size of at most [max_num_elems], the doubling does not wrap:
    the helper gives [2 * prev] bounded by the two limits, which is at
    least [prev] once [prev] has reached [initial_num_elems], and it gives
    [prev] back only at [max_num_elems]. *)
Theorem exponential_expand_no_wrap (o : t) (prev : Z) :
  _initial_num_elems o ≤ _max_num_elems o →
  _max_num_elems o ≤ MaximumBufferSize →
  0 ≤ prev ≤ _max_num_elems o →
  uint_mul prev 2 = prev * 2 ∧
  exponential_expand o prev =
    Z.max (_initial_num_elems o) (Z.min (prev * 2) (_max_num_elems o)) ∧
  (_initial_num_elems o ≤ prev → prev ≤ exponential_expand o prev) ∧
  (_initial_num_elems o ≤ prev → 0 < prev →
   (exponential_expand o prev = prev ↔ prev = _max_num_elems o)).
Proof.
  unfold MaximumBufferSize. change (UINT_MAX / 2) with 2147483647.
  intros Hle Hmax Hprev.
  assert (Hw : uint_mul prev 2 = prev * 2).
  { unfold uint_mul. apply uint_wrap_small. unfold is_uint, UINT_MAX. lia. }
  unfold exponential_expand. rewrite Hw. unfold clamp.
  split; [reflexivity|]. split; [lia|]. split; [lia|]. lia.
Qed.

Lemma exponential_expand_no_wrap_witness :
  exponential_expand (construct 16 None None None) 1073741824 = 2147483647 ∧
  1073741824 ≤ exponential_expand (construct 16 None None None) 1073741824.
Proof.
  destruct (exponential_expand_no_wrap (construct 16 None None None) 1073741824)
    as (_ & E & Hge & _).
  - vm_compute. discriminate.
  - vm_compute. discriminate.
  - vm_compute. split; discriminate.
  - split; [rewrite E; reflexivity|]. apply Hge. vm_compute. discriminate.
Defined.

(** X2: on previous sizes up to [UINT_MAX / 2], where the product does not
    wrap, the helper is monotone. *)
Theorem exponential_expand_monotone (o : t) (prev1 prev2 : Z) :
  0 ≤ prev1 → prev1 ≤ prev2 → prev2 ≤ UINT_MAX / 2 →
  exponential_expand o prev1 ≤ exponential_expand o prev2.
Proof.
  change (UINT_MAX / 2) with 2147483647. intros H0 H12 H2.
  unfold exponential_expand, uint_mul.
  rewrite !uint_wrap_small by (unfold is_uint, UINT_MAX; lia).
  unfold clamp. lia.
Qed.

Lemma exponential_expand_monotone_witness :
  exponential_expand (construct 16 None None None) 100
    ≤ exponential_expand (construct 16 None None None) 2147483647.
Proof.
  apply (exponential_expand_monotone (construct 16 None None None) 100 2147483647).
  - lia.
  - lia.
  - vm_compute. discriminate.
Defined.

(** X3: growing [k] times from a size between the two limits, with
    [max_num_elems] at most [MaximumBufferSize], gives [prev * 2^k] bounded
    by [max_num_elems]: the sizes double until they reach the limit and
    stay there. *)
Theorem exponential_expand_iter (o : t) (prev : Z) (k : nat) :
  _initial_num_elems o ≤ _max_num_elems o →
  _max_num_elems o ≤ MaximumBufferSize →
  0 < prev → _initial_num_elems o ≤ prev ≤ _max_num_elems o →
  Nat.iter k (exponential_expand o) prev
    = Z.min (prev * 2 ^ Z.of_nat k) (_max_num_elems o).
Proof.
  intros Hle Hmax H0 Hprev. induction k as [|k IH].
  - simpl. lia.
  - rewrite Nat.iter_succ, IH.
    assert (Hq : 1 ≤ 2 ^ Z.of_nat k) by (apply Z.pow_le_mono_r with (b := 0); lia).
    rewrite Nat2Z.inj_succ, Z.pow_succ_r by lia.
    rewrite exponential_expand_in_range; [nia|assumption|assumption|nia|nia].
Qed.

Lemma exponential_expand_iter_witness :
  Nat.iter 3 (exponential_expand (construct 16 (Some 8) (Some 100) None)) 8 = 64 ∧
  Nat.iter 4 (exponential_expand (construct 16 (Some 8) (Some 100) None)) 8 = 100 ∧
  Nat.iter 9 (exponential_expand (construct 16 (Some 8) (Some 100) None)) 8 = 100.
Proof.
  assert (H : ∀ k, Nat.iter k (exponential_expand (construct 16 (Some 8) (Some 100) None)) 8
                   = Z.min (8 * 2 ^ Z.of_nat k) 100).
  { intros k. apply (exponential_expand_iter (construct 16 (Some 8) (Some 100) None) 8 k).
    - vm_compute. discriminate.
    - vm_compute. discriminate.
    - lia.
    - vm_compute. split; discriminate. }
  rewrite !H. repeat split.
Defined.

End Doubling.

(** ** More on the buffer *)
Section BufferMore.
Import SegmentedArrayBuffer.

Lemma reset_result_wf (b : t) next : wf b → wf (reset_result b next).
Proof.
  intros (He & Hn & Ha & Hlen). unfold wf, reset_result. simpl.
  rewrite size_t_mul_uint by assumption.
  rewrite memset_whole by assumption. rewrite length_replicate.
  repeat split; try apply He; try apply Hn; unfold UINT_MAX; lia.
Qed.

(** Whether [reset] completes depends on the link, not on the buffer. *)
Lemma reset_defined ASSERT this (b x : t) next b' :
  reset ASSERT this b next = Some b' →
  reset ASSERT this x next = Some (reset_result x next).
Proof.
  intros Hreset. destruct (decide (next = this)) as [->|Hne].
  - destruct ASSERT; [|reflexivity].
    unfold reset in Hreset. rewrite bool_decide_eq_false_2 in Hreset by tauto.
    discriminate.
  - apply reset_ok. assumption.
Qed.

(** X4: the size in bytes that [mem_size()] reports is exact, the product
    being taken in [size_t]: it is the [sizeof] of the object plus
    [_num_elems * _elem_size], also when that product is past [UINT_MAX];
    the bytes past the header are the bytes that [reset] clears; and no call
    on the buffer changes it. *)
Theorem mem_size_exact ASSERT this sizeof_this m (b b' : t) :
  is_uint (_elem_size b) → is_uint (_num_elems b) → is_uint sizeof_this →
  call ASSERT this m b = Some b' →
  mem_size sizeof_this b = sizeof_this + _num_elems b * _elem_size b ∧
  size_t_mul (_num_elems b) (_elem_size b) = mem_size sizeof_this b - sizeof_this ∧
  mem_size sizeof_this b' = mem_size sizeof_this b.
Proof.
  intros He Hn Hs Hcall.
  assert (Hexact : mem_size sizeof_this b = sizeof_this + _num_elems b * _elem_size b).
  { unfold mem_size. rewrite size_t_mul_uint by assumption.
    unfold size_t_add, size_t_wrap. apply Z.mod_small.
    unfold is_uint, UINT_MAX in *. nia. }
  split; [exact Hexact|]. split.
  - rewrite Hexact, size_t_mul_uint by assumption. lia.
  - destruct (call_const_members ASSERT this m b b' Hcall) as [E1 E2].
    unfold mem_size. rewrite E1, E2. reflexivity.
Qed.

Lemma mem_size_exact_witness :
  mem_size 32 (Build 65536 65536 NULL 4096 0 []) = 4294967328 ∧
  UINT_MAX < mem_size 32 (Build 65536 65536 NULL 4096 0 []) - 32.
Proof.
  destruct (mem_size_exact true 12288 32 call_mem_size
              (Build 65536 65536 NULL 4096 0 []) (Build 65536 65536 NULL 4096 0 []))
    as (E & _ & _).
  - unfold is_uint, UINT_MAX. simpl. lia.
  - unfold is_uint, UINT_MAX. simpl. lia.
  - unfold is_uint, UINT_MAX. lia.
  - reflexivity.
  - rewrite E. unfold UINT_MAX. simpl. lia.
Defined.

(** X5: [reset] keeps a buffer well formed and leaves alone what it is not
    meant to touch: the element size, the capacity, the address of the
    storage, the number of bytes of the storage. *)
Theorem reset_keeps_wf ASSERT this (b : t) next b' :
  wf b →
  reset ASSERT this b next = Some b' →
  wf b' ∧
  elem_size b' = elem_size b ∧ num_elems b' = num_elems b ∧
  start b' = start b ∧
  List.length (storage b') = List.length (storage b).
Proof.
  intros Hwf Hreset. apply reset_inv in Hreset. subst b'.
  split; [apply reset_result_wf; assumption|].
  destruct Hwf as (He & Hn & _ & Hlen).
  unfold elem_size, num_elems, start, reset_result. simpl.
  rewrite size_t_mul_uint by assumption.
  rewrite memset_length by assumption. repeat split.
Qed.

Lemma reset_keeps_wf_witness :
  wf (reset_result (Build 2 3 NULL 4096 5 (replicate 6 Byte.xff)) 8192) ∧
  start (reset_result (Build 2 3 NULL 4096 5 (replicate 6 Byte.xff)) 8192) = 4096.
Proof.
  destruct (reset_keeps_wf true 12288 (Build 2 3 NULL 4096 5 (replicate 6 Byte.xff)) 8192
              (reset_result (Build 2 3 NULL 4096 5 (replicate 6 Byte.xff)) 8192))
    as (Hwf & _ & _ & Hstart & _).
  - unfold wf, is_uint, UINT_MAX. simpl. lia.
  - reflexivity.
  - split; [exact Hwf | exact Hstart].
Defined.

(** X6: of two [reset]s in a row the second decides: the buffer is the one
    a single [reset] to the second link leaves, and a [reset] repeated with
    the same link changes nothing more. *)
Theorem reset_twice ASSERT this (b : t) next1 next2 b1 b2 :
  wf b →
  reset ASSERT this b next1 = Some b1 →
  reset ASSERT this b1 next2 = Some b2 →
  reset ASSERT this b next2 = Some b2 ∧
  (next1 = next2 → b2 = b1).
Proof.
  intros Hwf H1 H2.
  assert (Hlast : reset_result (reset_result b next1) next2 = reset_result b next2).
  { destruct Hwf as (He & Hn & _ & Hlen).
    unfold reset_result, with_storage, with_next, with_next_allocate. simpl.
    rewrite size_t_mul_uint by assumption.
    rewrite (memset_whole (storage b)) by assumption.
    rewrite memset_whole by (rewrite length_replicate; lia).
    reflexivity. }
  pose proof (reset_inv _ _ _ _ _ H1) as E1.
  pose proof (reset_inv _ _ _ _ _ H2) as E2.
  subst b1. rewrite Hlast in E2. subst b2. split.
  - apply (reset_defined ASSERT this (reset_result b next1) b next2 _ H2).
  - intros ->. reflexivity.
Qed.

Lemma reset_twice_witness :
  reset true 12288 (Build 2 3 NULL 4096 5 (replicate 6 Byte.xff)) 16384
    = Some (reset_result (Build 2 3 NULL 4096 5 (replicate 6 Byte.xff)) 16384).
Proof.
  destruct (reset_twice true 12288 (Build 2 3 NULL 4096 5 (replicate 6 Byte.xff)) 8192 16384
              (reset_result (Build 2 3 NULL 4096 5 (replicate 6 Byte.xff)) 8192)
              (reset_result (Build 2 3 NULL 4096 5 (replicate 6 Byte.xff)) 16384))
    as (H & _).
  - unfold wf, is_uint, UINT_MAX. simpl. lia.
  - reflexivity.
  - reflexivity.
  - exact H.
Defined.

(** X7: a buffer of capacity 0 is full in every state; and after [reset]
    a buffer is full exactly when its capacity is 0. *)
Theorem is_full_capacity ASSERT this (b : t) next b' :
  is_uint (_num_elems b) → is_uint (_next_allocate b) →
  reset ASSERT this b next = Some b' →
  (num_elems b = 0 → is_full b = true) ∧
  (is_full b' = true ↔ num_elems b = 0) ∧
  (0 < num_elems b → is_full b' = false).
Proof.
  intros Hn Ha Hreset. apply reset_inv in Hreset. subst b'.
  unfold num_elems. rewrite !is_full_spec. unfold reset_result. simpl.
  unfold is_uint in *. split; [lia|]. split; [lia|].
  intros Hpos. apply not_true_is_false. rewrite is_full_spec. simpl. lia.
Qed.

Lemma is_full_capacity_witness :
  is_full (reset_result (Build 2 0 NULL 4096 0 []) 8192) = true ∧
  is_full (reset_result (Build 2 3 NULL 4096 7 (replicate 6 Byte.xff)) 8192) = false.
Proof.
  destruct (is_full_capacity true 12288 (Build 2 0 NULL 4096 0 []) 8192
              (reset_result (Build 2 0 NULL 4096 0 []) 8192)) as (_ & H0 & _).
  { unfold is_uint, UINT_MAX. simpl. lia. }
  { unfold is_uint, UINT_MAX. simpl. lia. }
  { reflexivity. }
  destruct (is_full_capacity true 12288 (Build 2 3 NULL 4096 7 (replicate 6 Byte.xff)) 8192
              (reset_result (Build 2 3 NULL 4096 7 (replicate 6 Byte.xff)) 8192)) as (_ & _ & H3).
  { unfold is_uint, UINT_MAX. simpl. lia. }
  { unfold is_uint, UINT_MAX. simpl. lia. }
  { reflexivity. }
  split; [apply H0; reflexivity | apply H3; simpl; lia].
Defined.

(** X8: [set_next] and [reset] fail exactly in a debug build and for a
    link to the buffer itself.  A product build stores the self-link, and so
    does, in either build, a store through [next_addr()]. *)
Theorem self_link_assertion ASSERT this (b : t) (link : Z) :
  (set_next ASSERT this b link = None ↔ ASSERT = true ∧ link = this) ∧
  (reset ASSERT this b link = None ↔ ASSERT = true ∧ link = this) ∧
  next <$> set_next false this b this = Some this ∧
  next <$> reset false this b this = Some this ∧
  next <$> call ASSERT this (call_next_addr_store this) b = Some this.
Proof.
  assert (Hset : ∀ x : t, set_next ASSERT this x link = None ↔ ASSERT = true ∧ link = this).
  { intros x. destruct (decide (link = this)) as [->|Hne].
    - destruct ASSERT.
      + rewrite set_next_self_debug. tauto.
      + split; [discriminate | intros [? _]; discriminate].
    - rewrite set_next_ok by assumption. split; [discriminate | tauto]. }
  split; [apply Hset|]. split; [|repeat split].
  destruct (decide (link = this)) as [->|Hne].
  - destruct ASSERT.
    + unfold reset. rewrite bool_decide_eq_false_2 by tauto. simpl. tauto.
    + split; [discriminate | intros [? _]; discriminate].
  - rewrite reset_ok by assumption. split; [discriminate | tauto].
Qed.

End BufferMore.

(** ** More on the heap of buffers and the free list *)
Section FreeListMore.
Import SegmentedArrayBuffer SegmentedArrayBufferList.

(** X9: the "loop condition" assertion sees a buffer linked to itself and
    nothing longer: two different buffers can be linked to each other with
    [set_next], in a debug build too, and the heap then holds a cycle. *)
Theorem set_next_two_cycle ASSERT sizeof_buffer (l : SegmentedArrayBufferList.t)
    (h : heap) (p q : Z) (bp bq : SegmentedArrayBuffer.t) :
  p ≠ q → h !! p = Some bp → h !! q = Some bq →
  ∃ h',
    exec_all ASSERT sizeof_buffer
      [on_buffer p (call_set_next q); on_buffer q (call_set_next p)] (l, h)
      = Some (l, h') ∧
    next <$> h' !! p = Some q ∧
    next <$> h' !! q = Some p.
Proof.
  intros Hne Hp Hq.
  exists (<[q := with_next bq p]> (<[p := with_next bp q]> h)).
  split; [|split].
  - simpl. rewrite Hp. simpl.
    rewrite set_next_ok by (intros E; apply Hne; symmetry; exact E). simpl.
    rewrite lookup_insert_ne by assumption. rewrite Hq. simpl.
    rewrite set_next_ok by assumption. reflexivity.
  - rewrite lookup_insert_ne by (intros E; apply Hne; symmetry; exact E).
    rewrite lookup_insert_eq. reflexivity.
  - rewrite lookup_insert_eq. reflexivity.
Qed.

Lemma set_next_two_cycle_witness :
  ∃ h',
    exec_all true 32
      [on_buffer 4096 (call_set_next 8192); on_buffer 8192 (call_set_next 4096)]
      (construct, {[ 4096 := SegmentedArrayBuffer.Build 2 3 NULL 12288 0 [];
                     8192 := SegmentedArrayBuffer.Build 2 3 NULL 16384 0 [] ]})
      = Some (construct, h') ∧
    next <$> h' !! 4096 = Some 8192 ∧
    next <$> h' !! 8192 = Some 4096.
Proof.
  apply (set_next_two_cycle true 32 construct _ 4096 8192
           (SegmentedArrayBuffer.Build 2 3 NULL 12288 0 [])
           (SegmentedArrayBuffer.Build 2 3 NULL 16384 0 [])).
  - lia.
  - vm_compute. reflexivity.
  - vm_compute. reflexivity.
Defined.

Lemma same_but_next_refl b : same_but_next b b.
Proof. repeat split. Qed.

Lemma same_but_next_trans b1 b2 b3 :
  same_but_next b1 b2 → same_but_next b2 b3 → same_but_next b1 b3.
Proof.
  unfold same_but_next. intros (?&?&?&?&?) (?&?&?&?&?).
  repeat split; congruence.
Qed.

Lemma add_inv l (h : heap) elem l' h' :
  add l h elem = Some (l', h') →
  ∃ b, h !! elem = Some b ∧
       l' = SegmentedArrayBufferList.Build elem (_num_buffers l) (_mem_size l) ∧
       h' = <[elem := store_next_addr b (_list l)]> h.
Proof.
  unfold add. destruct (prepend (_list l) h elem) as [[top h1]|] eqn:E; simpl; [|congruence].
  intros [= <- <-]. apply prepend_inv in E. destruct E as (b & Hb & -> & ->).
  exists b. repeat split. exact Hb.
Qed.

Lemma last_cons_default {A} (d x : A) (l : list A) :
  default d (last (x :: l)) = default x (last l).
Proof. rewrite last_cons. destruct (last l); reflexivity. Qed.

(** X10: [add] pushes without counting.  After any number of [add]s the
    two counters of the list are what they were, so [num_buffers()] and
    [mem_size()] of a list filled by [add] alone stay at 0; the top of the
    list is the buffer added last; and each buffer of the heap is as before
    but for its link. *)
Theorem add_keeps_counters ASSERT sizeof_buffer (elems : list Z) :
  ∀ (l : SegmentedArrayBufferList.t) (h : heap) l' h',
  exec_all ASSERT sizeof_buffer (list_add <$> elems) (l, h) = Some (l', h') →
  num_buffers l' = num_buffers l ∧
  SegmentedArrayBufferList.mem_size l' = SegmentedArrayBufferList.mem_size l ∧
  _list l' = default (_list l) (last elems) ∧
  (∀ p b, h !! p = Some b → ∃ b', h' !! p = Some b' ∧ same_but_next b b').
Proof.
  induction elems as [|elem elems IH]; intros l h l' h' Hexec.
  - injection Hexec as <- <-. repeat split.
    intros p b Hp. exists b. split; [assumption|apply same_but_next_refl].
  - change (list_add <$> elem :: elems) with (list_add elem :: (list_add <$> elems)) in Hexec.
    simpl in Hexec.
    destruct (add l h elem) as [[l1 h1]|] eqn:Eadd; simpl in Hexec; [|congruence].
    apply add_inv in Eadd. destruct Eadd as (b0 & Hb0 & -> & ->).
    destruct (IH _ _ _ _ Hexec) as (Hn & Hm & Hl & Hh). simpl in *.
    split; [exact Hn|]. split; [exact Hm|]. split.
    + rewrite Hl, last_cons_default. reflexivity.
    + intros p b Hp. destruct (decide (elem = p)) as [->|Hne].
      * destruct (Hh p (store_next_addr b0 (_list l))) as (b' & Hb' & Hs).
        { apply lookup_insert_eq. }
        exists b'. split; [exact Hb'|].
        assert (b0 = b) as -> by congruence.
        apply (same_but_next_trans _ (store_next_addr b (_list l))); [|exact Hs].
        repeat split.
      * apply Hh. rewrite lookup_insert_ne by assumption. exact Hp.
Qed.

Lemma add_keeps_counters_witness :
  ∃ l' h',
    exec_all true 32 [list_add 4096; list_add 8192]
      (construct, {[ 4096 := SegmentedArrayBuffer.Build 2 3 NULL 12288 0 [];
                     8192 := SegmentedArrayBuffer.Build 2 3 NULL 16384 0 [] ]})
      = Some (l', h') ∧
    num_buffers l' = 0 ∧ SegmentedArrayBufferList.mem_size l' = 0 ∧ _list l' = 8192.
Proof.
  assert (Hrun : ∃ l' h',
    exec_all true 32 (list_add <$> [4096; 8192])
      (construct, {[ 4096 := SegmentedArrayBuffer.Build 2 3 NULL 12288 0 [];
                     8192 := SegmentedArrayBuffer.Build 2 3 NULL 16384 0 [] ]})
      = Some (l', h')).
  { eexists _, _. vm_compute. reflexivity. }
  destruct Hrun as (l' & h' & Hrun).
  destruct (add_keeps_counters true 32 [4096; 8192] _ _ _ _ Hrun) as (Hn & Hm & Hl & _).
  exists l', h'. split; [exact Hrun|]. split; [exact Hn|]. split; [exact Hm|exact Hl].
Defined.

End FreeListMore.
